(** * Penalty-method auction benchmark: [auction_optimization.py]

    A shallow embedding of the penalty potential, the analytical oracle and
    the driver [main], together with the properties stated about them.

    Numbers: the Python code computes on NumPy [float64] arrays.  Here a
    number is an exact rational ([Q]); rounding, infinities and NaN are not
    part of the model.  Equality of numbers is [Qeq] (written [==]).
    Arrays are one-dimensional, modelled as lists.  The properties proved
    over [Q] are the ones that do not depend on a result being exact; where
    rounding decides (the sum of the initial allocations), module
    [Binary64] evaluates the same code on IEEE 754 binary64 numbers. *)

From Stdlib Require Import QArith Qminmax Qabs Lqa Ascii String.
From Stdlib Require Uint63 PrimFloat.
From stdpp Require Import base list strings.

Open Scope Q_scope.

(** ** NumPy primitives used by the program *)

(** A one-dimensional [float64] array. *)
Abbreviation ndarray := (list Q).

Module Np.

(** [np.zeros(n)], [np.ones(n)] *)
Definition zeros (n : nat) : ndarray := replicate n 0.
Definition ones (n : nat) : ndarray := replicate n 1.

(** [np.sum(a)]: 0 for the empty array. *)
Definition sum (a : ndarray) : Q := fold_left Qplus a 0.

(** [-a] *)
Definition neg (a : ndarray) : ndarray := Qopp <$> a.

(** [a - c], [a / c] for a scalar [c] *)
Definition sub_scalar (a : ndarray) (c : Q) : ndarray := (fun t => t - c) <$> a.
Definition div_scalar (a : ndarray) (c : Q) : ndarray := (fun t => t / c) <$> a.

(** [np.maximum(0, a)] for an array and for a scalar *)
Definition maximum0 (a : ndarray) : ndarray := Qmax 0 <$> a.
Definition maximum0_scalar (c : Q) : Q := Qmax 0 c.

(** [a ** 2] *)
Definition square (a : ndarray) : ndarray := (fun t => t ^ 2) <$> a.

(** Element-wise binary operation on two arrays with NumPy's broadcasting
    rule for one dimension: equal lengths, or one side of length 1;
    anything else raises [ValueError] ([None]). *)
Definition broadcast (f : Q -> Q -> Q) (a b : ndarray) : option ndarray :=
  if Nat.eqb (length a) (length b) then Some (zip_with f a b)
  else match a, b with
       | _, [c] => Some ((fun t => f t c) <$> a)
       | [c], _ => Some ((fun t => f c t) <$> b)
       | _, _ => None
       end.

Definition mul := broadcast Qmult.
Definition sub := broadcast Qminus.

(** [np.argmax(v)]: the scan keeps the first index whose element is
    strictly greater than every earlier one; it raises on an empty array. *)
Fixpoint argmax_from (best_i : nat) (best : Q) (i : nat) (l : list Q) : nat :=
  match l with
  | [] => best_i
  | y :: l' =>
      match Qcompare y best with
      | Gt => argmax_from i y (S i) l'
      | _ => argmax_from best_i best (S i) l'
      end
  end.

Definition argmax (v : ndarray) : option nat :=
  match v with
  | [] => None
  | y :: l => Some (argmax_from 0 y 1 l)
  end.

End Np.

(** ** The penalty potential (lines 6-39) *)

Definition potential (z v : ndarray) (mu : Q) : option Q :=
  let n := length v in
  let x := take n z in
  let p := drop n z in
  let revenue_term := - Np.sum p in
  let penalty_alloc_bounds :=
    Np.sum (Np.square (Np.maximum0 (Np.neg x)))
    + Np.sum (Np.square (Np.maximum0 (Np.sub_scalar x 1))) in
  let penalty_total_alloc := (Np.maximum0_scalar (Np.sum x - 1)) ^ 2 in
  let penalty_payment_nonneg := Np.sum (Np.square (Np.maximum0 (Np.neg p))) in
  vx ← Np.mul v x;
  d ← Np.sub p vx;
  let penalty_ir := Np.sum (Np.square (Np.maximum0 d)) in
  let penalty :=
    penalty_alloc_bounds + penalty_total_alloc + penalty_payment_nonneg
    + penalty_ir in
  Some (revenue_term + (mu / 2) * penalty).

(** [potential] with its default [mu=100.0]. *)
Definition potential_default (z v : ndarray) : option Q := potential z v 100.

(** ** The analytical oracle (lines 41-56)

    [np.argmax] raises on an empty array ([None]).  The index it returns
    is in range, so the two item assignments never fall outside their
    arrays (where the list update below would do nothing and NumPy would
    raise). *)

Definition analytical_optimal_solution (v : ndarray) : option ndarray :=
  let n := length v in
  let x_opt := Np.zeros n in
  let p_opt := Np.zeros n in
  i_star ← Np.argmax v;
  v_star ← v !! i_star;
  let x_opt := <[i_star := 1]> x_opt in
  let p_opt := <[i_star := v_star]> p_opt in
  Some (x_opt ++ p_opt).

(** ** The potential as the specification writes it, entry by entry *)

Module Spec.

(** [sum_{i < n} f i] *)
Fixpoint bigsum (n : nat) (f : nat -> Q) : Q :=
  match n with
  | O => 0
  | S k => bigsum k f + f k
  end.

Section Formula.
Variables (n : nat) (z v : list Q).

Definition x_ (i : nat) : Q := nth i z 0.
Definition p_ (i : nat) : Q := nth (n + i) z 0.
Definition v_ (i : nat) : Q := nth i v 0.

Definition penalty_alloc_bounds : Q :=
  bigsum n (fun i => (Qmax 0 (- x_ i)) ^ 2)
  + bigsum n (fun i => (Qmax 0 (x_ i - 1)) ^ 2).
Definition penalty_total_alloc : Q := (Qmax 0 (bigsum n x_ - 1)) ^ 2.
Definition penalty_payment_nonneg : Q :=
  bigsum n (fun i => (Qmax 0 (- p_ i)) ^ 2).
Definition penalty_ir : Q :=
  bigsum n (fun i => (Qmax 0 (p_ i - v_ i * x_ i)) ^ 2).

Definition total_penalty : Q :=
  penalty_alloc_bounds + penalty_total_alloc + penalty_payment_nonneg
  + penalty_ir.

Definition potential (mu : Q) : Q :=
  - bigsum n p_ + (mu / 2) * total_penalty.

(** The soft constraints of the data model. *)
Definition feasible : Prop :=
  (forall i, (i < n)%nat ->
     0 <= x_ i /\ x_ i <= 1 /\ 0 <= p_ i /\ p_ i <= v_ i * x_ i)
  /\ bigsum n x_ <= 1.
End Formula.

End Spec.

(** The penalty the code adds up when [v * x] and [p - v * x] are
    element-wise (equal lengths). *)
Definition penalty_of (z v : ndarray) : Q :=
  let n := length v in
  let x := take n z in
  let p := drop n z in
  Np.sum (Np.square (Np.maximum0 (Np.neg x)))
  + Np.sum (Np.square (Np.maximum0 (Np.sub_scalar x 1)))
  + (Np.maximum0_scalar (Np.sum x - 1)) ^ 2
  + Np.sum (Np.square (Np.maximum0 (Np.neg p)))
  + Np.sum (Np.square (Np.maximum0 (zip_with Qminus p (zip_with Qmult v x)))).

(** [k] is an index of [v] holding a maximal entry, and every earlier
    entry is strictly smaller. *)
Definition first_max (v : ndarray) (k : nat) : Prop :=
  (k < length v)%nat /\
  (forall j, (j < length v)%nat -> nth j v 0 <= nth k v 0) /\
  (forall j, (j < k)%nat -> nth j v 0 < nth k v 0).

(** ** The driver [main] (lines 58-130) *)

(** *** Strings: [str.split(',')] and [str.strip()] *)

Module Str.

Fixpoint split (sep : ascii) (s : string) : list string :=
  match s with
  | EmptyString => [EmptyString]
  | String c s' =>
      if Ascii.eqb c sep then EmptyString :: split sep s'
      else match split sep s' with
           | [] => [String c EmptyString]
           | t :: ts => String c t :: ts
           end
  end.

(** ASCII characters for which [str.isspace] holds. *)
Definition is_space (c : ascii) : bool :=
  let n := nat_of_ascii c in
  ((9 <=? n)%nat && (n <=? 13)%nat) || ((28 <=? n)%nat && (n <=? 32)%nat).

Fixpoint lstrip (s : string) : string :=
  match s with
  | String c s' => if is_space c then lstrip s' else s
  | EmptyString => EmptyString
  end.

Fixpoint rstrip (s : string) : string :=
  match s with
  | EmptyString => EmptyString
  | String c s' =>
      match rstrip s' with
      | EmptyString => if is_space c then EmptyString else String c EmptyString
      | t => String c t
      end
  end.

Definition strip (s : string) : string := rstrip (lstrip s).

End Str.

(** *** Exceptions, output and the run monad *)

(** A Python exception (a subclass of [Exception]): class and message. *)
Record exn := Exn { exn_class : string; exn_msg : string }.

Inductive outcome (A : Type) : Type :=
| Return (a : A)
| Raise (e : exn).
Arguments Return {A} a.
Arguments Raise {A} e.

(** The lines [main] prints, with the values they show. *)
Inductive line :=
| Banner
| BidderValuations (v : ndarray)
| InitialGuess (z0 : ndarray)
| RunningSteepestDescent
| SDSolution (z : ndarray)
| SDPotential (f : Q)
| SDRevenue (r : Q)
| RunningNewton
| NewtonSolution (z : ndarray)
| NewtonPotential (f : Q)
| NewtonRevenue (r : Q)
| NewtonFailed (e : exn)
| AnalyticalHeader
| AnalyticalOptimal (z : ndarray)
| OptimalRevenue (r : Q)
| ComparisonHeader
| SDRevenueError (err : Q)
| NewtonRevenueError (err : Q)
| NewtonNoSolution.

(** What a run does, in order: lines printed and external solvers called. *)
Inductive event :=
| Print (l : line)
| CallSteepestDescent (f : ndarray -> option Q) (z0 : ndarray)
    (alpha convergence_tol : Q) (max_iter : Z)
| CallNewton (f : ndarray -> option Q) (z0 : ndarray)
    (convergence_tol : Q) (max_iter : Z).

Definition is_solver_call (ev : event) : bool :=
  match ev with
  | Print _ => false
  | CallSteepestDescent _ _ _ _ _ | CallNewton _ _ _ _ => true
  end.

(** A computation appends to the log of events and returns or raises. *)
Definition M (A : Type) : Type := list event -> outcome A * list event.

#[global] Instance M_ret : MRet M := fun A a log => (Return a, log).

#[global] Instance M_bind : MBind M := fun A B k m log =>
  match m log with
  | (Return a, log') => k a log'
  | (Raise e, log') => (Raise e, log')
  end.

Definition raise {A : Type} (e : exn) : M A := fun log => (Raise e, log).

Definition emit (ev : event) : M unit := fun log => (Return tt, log ++ [ev]).

Definition print (l : line) : M unit := emit (Print l).

(** [try: body except Exception as e: handler e] *)
Definition try_except {A : Type} (body : M A) (handler : exn -> M A) : M A :=
  fun log =>
    match body log with
    | (Return a, log') => (Return a, log')
    | (Raise e, log') => handler e log'
    end.

(** A NumPy operation that raised. *)
Definition from_option {A : Type} (e : exn) (o : option A) : M A :=
  match o with
  | Some a => mret a
  | None => raise e
  end.

Definition from_outcome {A : Type} (o : outcome A) : M A := fun log => (o, log).

Definition broadcast_error : exn :=
  Exn "ValueError" "operands could not be broadcast together".
Definition argmax_error : exn :=
  Exn "ValueError" "attempt to get argmax of an empty sequence".
Definition parse_error : exn :=
  Exn "ValueError"
      "Error parsing valuations. Ensure they are comma-separated numbers.".

(** The parsed command line. *)
Record args := Args {
  valuations : string;
  mu : Q;
  alpha : Q;
  tol : Q;
  max_iter : Z;
  max_iter_newton : Z
}.

(** [x0 = np.ones(n) / n], [p0 = np.zeros(n)], [z0 = concatenate] *)
Definition initial_guess (n : nat) : ndarray :=
  let x0 := Np.div_scalar (Np.ones n) (inject_Z (Z.of_nat n)) in
  let p0 := Np.zeros n in
  x0 ++ p0.

Section Driver.
(** The builtin [float] on a token ([None]: it raises), and the two
    solvers of the external module [optimization]. *)
Variable py_float : string -> option Q.
Variable steepest_descent :
  (ndarray -> option Q) -> ndarray -> Q -> Q -> Z -> outcome ndarray.
Variable newton :
  (ndarray -> option Q) -> ndarray -> Q -> Z -> outcome ndarray.

(** [[float(val.strip()) for val in s.split(',')]] *)
Definition parse_valuations (s : string) : option ndarray :=
  mapM (fun val => py_float (Str.strip val)) (Str.split "," s).

Definition call_steepest_descent (f : ndarray -> option Q) (z0 : ndarray)
    (a t : Q) (it : Z) : M ndarray :=
  emit (CallSteepestDescent f z0 a t it);;
  from_outcome (steepest_descent f z0 a t it).

Definition call_newton (f : ndarray -> option Q) (z0 : ndarray)
    (t : Q) (it : Z) : M ndarray :=
  emit (CallNewton f z0 t it);;
  from_outcome (newton f z0 t it).

Definition main (a : args) : M unit :=
  v ← from_option parse_error (parse_valuations (valuations a));
  let n := length v in
  let potential_func := fun z => potential z v (mu a) in
  let z0 := initial_guess n in
  print Banner;;
  print (BidderValuations v);;
  print (InitialGuess z0);;
  print RunningSteepestDescent;;
  z_sd ← call_steepest_descent potential_func z0 (alpha a) (tol a) (max_iter a);
  print (SDSolution z_sd);;
  f_sd ← from_option broadcast_error (potential_func z_sd);
  print (SDPotential f_sd);;
  let revenue_sd := Np.sum (drop n z_sd) in
  print (SDRevenue revenue_sd);;
  print RunningNewton;;
  z_newton ←
    try_except
      (z_newton ← call_newton potential_func z0 (tol a) (max_iter_newton a);
       print (NewtonSolution z_newton);;
       f_newton ← from_option broadcast_error (potential_func z_newton);
       print (NewtonPotential f_newton);;
       let revenue_newton := Np.sum (drop n z_newton) in
       print (NewtonRevenue revenue_newton);;
       mret (Some (z_newton, revenue_newton)))
      (fun e => print (NewtonFailed e);; mret None);
  z_opt ← from_option argmax_error (analytical_optimal_solution v);
  let optimal_revenue := Np.sum (drop n z_opt) in
  print AnalyticalHeader;;
  print (AnalyticalOptimal z_opt);;
  print (OptimalRevenue optimal_revenue);;
  print ComparisonHeader;;
  print (SDRevenueError (Qabs (optimal_revenue - revenue_sd)));;
  match z_newton with
  | Some (_, revenue_newton) =>
      print (NewtonRevenueError (Qabs (optimal_revenue - revenue_newton)))
  | None => print NewtonNoSolution
  end.
End Driver.

(** The run was refused: it raised and no solver was called. *)
Definition rejected (r : outcome unit * list event) : Prop :=
  (exists e, r.1 = Raise e) /\ Forall (fun ev => is_solver_call ev = false) r.2.

(** *** Stand-ins for the externals, for running [main] on examples *)

Module Example.

Definition digit (c : ascii) : option Z :=
  let n := nat_of_ascii c in
  if ((48 <=? n)%nat && (n <=? 57)%nat)%bool then Some (Z.of_nat (n - 48))
  else None.

Fixpoint digits (s : string) (acc : Z) : option Z :=
  match s with
  | EmptyString => Some acc
  | String c s' => d ← digit c; digits s' (10 * acc + d)%Z
  end.

(** [float] restricted to non-empty strings of decimal digits with an
    optional leading minus sign. *)
Definition float (s : string) : option Q :=
  match s with
  | EmptyString => None
  | String "-" EmptyString => None
  | String "-" s' => n ← digits s' 0; Some (inject_Z (- n))
  | _ => n ← digits s 0; Some (inject_Z n)
  end.

(** A solver that gives back its starting point. *)
Definition sd_stay (f : ndarray -> option Q) (z0 : ndarray) (a t : Q) (it : Z)
  : outcome ndarray := Return z0.

Definition newton_stay (f : ndarray -> option Q) (z0 : ndarray) (t : Q) (it : Z)
  : outcome ndarray := Return z0.

(** A curvature solver that fails. *)
Definition newton_singular (f : ndarray -> option Q) (z0 : ndarray) (t : Q)
    (it : Z) : outcome ndarray := Raise (Exn "LinAlgError" "Singular matrix").

(** The command line [--valuations s --mu m], other options at their
    defaults. *)
Definition cli (s : string) (m : Q) : args :=
  Args s m (1 # 100) (1 # 1000000) 1000 100.

End Example.


(** ** The same code on binary64 numbers

    [potential] and the initial guess of [main], operation for operation,
    on IEEE 754 binary64 values.  [np.sum] adds left to right below eight
    entries; from eight entries on NumPy keeps eight partial sums, adds
    them pairwise and then adds the remaining entries (blocks of at most
    128 entries, which is all that is needed here).  The potential takes
    the summation as a parameter. *)

Module Binary64.

Abbreviation float := PrimFloat.float.

Definition f64 (k : Z) : float := PrimFloat.of_uint63 (Uint63.of_Z k).

Definition zeros (n : nat) : list float := replicate n (f64 0).
Definition ones (n : nat) : list float := replicate n (f64 1).

(** [x0 = np.ones(n) / n], [p0 = np.zeros(n)], [z0 = concatenate] *)
Definition initial_guess (n : nat) : list float :=
  ((fun t => PrimFloat.div t (f64 (Z.of_nat n))) <$> ones n) ++ zeros n.

Definition sum_loop (a : list float) : float :=
  fold_left PrimFloat.add a (f64 0).

Fixpoint add_block (r a : list float) : list float :=
  match r, a with
  | x :: r', y :: a' => PrimFloat.add x y :: add_block r' a'
  | _, _ => r
  end.

Fixpoint sum_blocks (fuel : nat) (r a : list float) : list float * list float :=
  match fuel with
  | O => (r, a)
  | S fuel' =>
      if (8 <=? length a)%nat
      then sum_blocks fuel' (add_block r (take 8 a)) (drop 8 a)
      else (r, a)
  end.

Definition sum_pairwise (a : list float) : float :=
  if (length a <? 8)%nat then sum_loop a
  else
    let '(r, rest) := sum_blocks (length a) (take 8 a) (drop 8 a) in
    match r with
    | [r0; r1; r2; r3; r4; r5; r6; r7] =>
        fold_left PrimFloat.add rest
          (PrimFloat.add
             (PrimFloat.add (PrimFloat.add r0 r1) (PrimFloat.add r2 r3))
             (PrimFloat.add (PrimFloat.add r4 r5) (PrimFloat.add r6 r7)))
    | _ => f64 0
    end.

(** [np.maximum(0, a)] (a NaN is passed on) *)
Definition maximum0 (a : float) : float :=
  if PrimFloat.is_nan a then a
  else if PrimFloat.ltb (f64 0) a then a else f64 0.

Definition square (a : float) : float := PrimFloat.mul a a.

Definition broadcast (f : float -> float -> float) (a b : list float)
  : option (list float) :=
  if Nat.eqb (length a) (length b) then Some (zip_with f a b)
  else match a, b with
       | _, [c] => Some ((fun t => f t c) <$> a)
       | [c], _ => Some ((fun t => f c t) <$> b)
       | _, _ => None
       end.

Section Potential.
Variable np_sum : list float -> float.

Definition hinge_sum (a : list float) : float :=
  np_sum ((fun t => square (maximum0 t)) <$> a).

Definition potential (z v : list float) (mu : float) : option float :=
  let n := length v in
  let x := take n z in
  let p := drop n z in
  let revenue_term := PrimFloat.opp (np_sum p) in
  let penalty_alloc_bounds :=
    PrimFloat.add (hinge_sum (PrimFloat.opp <$> x))
      (hinge_sum ((fun t => PrimFloat.sub t (f64 1)) <$> x)) in
  let penalty_total_alloc :=
    square (maximum0 (PrimFloat.sub (np_sum x) (f64 1))) in
  let penalty_payment_nonneg := hinge_sum (PrimFloat.opp <$> p) in
  vx ← broadcast PrimFloat.mul v x;
  d ← broadcast PrimFloat.sub p vx;
  let penalty_ir := hinge_sum d in
  let penalty :=
    PrimFloat.add
      (PrimFloat.add (PrimFloat.add penalty_alloc_bounds penalty_total_alloc)
         penalty_payment_nonneg)
      penalty_ir in
  Some (PrimFloat.add revenue_term
          (PrimFloat.mul (PrimFloat.div mu (f64 2)) penalty)).
End Potential.

End Binary64.

(** Number of occurrences of a character in a string ([str.count]). *)
Fixpoint count_char (c : ascii) (s : string) : nat :=
  match s with
  | EmptyString => O
  | String c' s' => (if Ascii.eqb c' c then 1 else 0) + count_char c s'
  end.

(** The solver calls of a run, in order. *)
Definition solver_calls (log : list event) : list event :=
  filter (fun ev => is_solver_call ev = true) log.

(** * Properties *)

(** ** Sums *)

Lemma sum_snoc (l : list Q) (y : Q) : Np.sum (l ++ [y]) = Np.sum l + y.
Proof. unfold Np.sum. now rewrite fold_left_app. Qed.

Lemma bigsum_ext (n : nat) (f g : nat -> Q) :
  (forall i, (i < n)%nat -> f i == g i) -> Spec.bigsum n f == Spec.bigsum n g.
Proof.
  induction n as [|n IH]; intros H; simpl; [reflexivity|].
  rewrite IH, (H n) by (intros; auto with lia). reflexivity.
Qed.

(** A list sums to the indexed sum of its entries. *)
Lemma sum_bigsum (l : list Q) (n : nat) (f : nat -> Q) :
  length l = n ->
  (forall i, (i < n)%nat -> l !! i = Some (f i)) ->
  Np.sum l == Spec.bigsum n f.
Proof.
  revert n. induction l as [|y l IH] using rev_ind; intros n Hn Hf.
  - subst n. reflexivity.
  - rewrite length_app in Hn. simpl in Hn.
    destruct n as [|n]; [lia|]. assert (length l = n) as Hl by lia.
    rewrite sum_snoc. simpl.
    rewrite (IH n Hl).
    + specialize (Hf n ltac:(lia)).
      rewrite lookup_app_r, Hl, Nat.sub_diag in Hf by lia.
      simpl in Hf. injection Hf as ->. reflexivity.
    + intros i Hi. rewrite <- (Hf i) by lia.
      now rewrite lookup_app_l by lia.
Qed.

(** ** The potential on well-shaped input *)

Lemma broadcast_same (f : Q -> Q -> Q) (a b : ndarray) :
  length a = length b -> Np.broadcast f a b = Some (zip_with f a b).
Proof. intros H. unfold Np.broadcast. now rewrite H, Nat.eqb_refl. Qed.

Section WellShaped.
Variables (n : nat) (z v : ndarray).
Hypothesis Hv : length v = n.
Hypothesis Hz : length z = (2 * n)%nat.

Lemma length_x : length (take n z) = n.
Proof. rewrite length_take. lia. Qed.

Lemma length_p : length (drop n z) = n.
Proof. rewrite length_drop. lia. Qed.

Lemma potential_shaped (mu : Q) :
  potential z v mu = Some (- Np.sum (drop n z) + (mu / 2) * penalty_of z v).
Proof.
  unfold potential, penalty_of, Np.mul, Np.sub. rewrite Hv.
  rewrite (broadcast_same Qmult) by (rewrite length_x; lia). simpl.
  rewrite (broadcast_same Qminus)
    by (rewrite length_zip_with, length_x, length_p; lia).
  reflexivity.
Qed.

Lemma lookup_x (i : nat) : (i < n)%nat -> take n z !! i = Some (Spec.x_ z i).
Proof.
  intros Hi. rewrite lookup_take_lt by lia. unfold Spec.x_.
  destruct (nth_lookup_or_length z i 0) as [->|]; [reflexivity | lia].
Qed.

Lemma lookup_p (i : nat) : (i < n)%nat -> drop n z !! i = Some (Spec.p_ n z i).
Proof.
  intros Hi. rewrite lookup_drop. unfold Spec.p_.
  destruct (nth_lookup_or_length z (n + i) 0) as [->|]; [reflexivity | lia].
Qed.

Lemma lookup_v (i : nat) : (i < n)%nat -> v !! i = Some (Spec.v_ v i).
Proof.
  intros Hi. unfold Spec.v_.
  destruct (nth_lookup_or_length v i 0) as [->|]; [reflexivity | lia].
Qed.

Lemma sum_x : Np.sum (take n z) == Spec.bigsum n (Spec.x_ z).
Proof. apply sum_bigsum; [apply length_x | apply lookup_x]. Qed.

Lemma sum_p : Np.sum (drop n z) == Spec.bigsum n (Spec.p_ n z).
Proof. apply sum_bigsum; [apply length_p | apply lookup_p]. Qed.

Lemma penalty_of_spec : penalty_of z v == Spec.total_penalty n z v.
Proof.
  unfold penalty_of, Spec.total_penalty, Spec.penalty_alloc_bounds,
    Spec.penalty_total_alloc, Spec.penalty_payment_nonneg, Spec.penalty_ir,
    Np.square, Np.maximum0, Np.maximum0_scalar, Np.neg, Np.sub_scalar.
  rewrite Hv.
  repeat apply Qplus_comp.
  - apply sum_bigsum; [rewrite !length_fmap; apply length_x|].
    intros i Hi. now rewrite !list_lookup_fmap, lookup_x.
  - apply sum_bigsum; [rewrite !length_fmap; apply length_x|].
    intros i Hi. now rewrite !list_lookup_fmap, lookup_x.
  - rewrite sum_x. reflexivity.
  - apply sum_bigsum; [rewrite !length_fmap; apply length_p|].
    intros i Hi. now rewrite !list_lookup_fmap, lookup_p.
  - apply sum_bigsum.
    + rewrite !length_fmap, !length_zip_with, length_x, length_p. lia.
    + intros i Hi.
      rewrite !list_lookup_fmap, lookup_zip_with, lookup_p by lia. simpl.
      rewrite lookup_zip_with, lookup_v by lia. simpl.
      now rewrite lookup_x.
Qed.

Lemma potential_spec (mu : Q) :
  exists r, potential z v mu = Some r /\ r == Spec.potential n z v mu.
Proof.
  eexists. split; [apply potential_shaped|].
  unfold Spec.potential. now rewrite sum_p, penalty_of_spec.
Qed.
End WellShaped.

(** C1. For a valuation vector [v] of length [n >= 1], a solution vector
    [z] of length [2n] and any [mu], [potential z v mu] returns a number,
    and that number is [-sum(p) + (mu/2) * (sum_i max(0,-x_i)^2
    + sum_i max(0,x_i-1)^2 + max(0,sum(x)-1)^2 + sum_i max(0,-p_i)^2
    + sum_i max(0,p_i - v_i*x_i)^2)] with [x_i = z[i]], [p_i = z[n+i]]. *)
Theorem potential_formula (n : nat) (z v : ndarray) (mu : Q) :
  (1 <= n)%nat -> length v = n -> length z = (2 * n)%nat ->
  exists r,
    potential z v mu = Some r /\
    r == - Spec.bigsum n (fun i => nth (n + i) z 0)
         + (mu / 2) *
           (Spec.bigsum n (fun i => (Qmax 0 (- nth i z 0)) ^ 2)
            + Spec.bigsum n (fun i => (Qmax 0 (nth i z 0 - 1)) ^ 2)
            + (Qmax 0 (Spec.bigsum n (fun i => nth i z 0) - 1)) ^ 2
            + Spec.bigsum n (fun i => (Qmax 0 (- nth (n + i) z 0)) ^ 2)
            + Spec.bigsum n
                (fun i => (Qmax 0 (nth (n + i) z 0 - nth i v 0 * nth i z 0)) ^ 2)).
Proof.
  intros _ Hv Hz. exact (potential_spec n z v Hv Hz mu).
Qed.

Lemma potential_formula_witness :
  exists r, potential [2; 1; 0; 0; 3; -1] [10; 20; 15] 100 = Some r /\ r == 298.
Proof.
  destruct (potential_formula 3 [2; 1; 0; 0; 3; -1] [10; 20; 15] 100)
    as [r [Hr Hf]]; [lia | reflexivity | reflexivity |].
  exists r. split; [exact Hr|]. rewrite Hf. vm_compute. reflexivity.
Defined.

(** ** Feasible points and the sign of the penalty *)

Lemma sq_nonneg (a : Q) : 0 <= a ^ 2.
Proof. simpl. nra. Qed.

Lemma sum_square_nonneg (l : ndarray) : 0 <= Np.sum (Np.square l).
Proof.
  induction l as [|y l IH] using rev_ind; [discriminate|].
  unfold Np.square in *. rewrite fmap_app.
  change ((fun t => t ^ 2) <$> [y]) with [y ^ 2]. rewrite sum_snoc.
  pose proof (sq_nonneg y). lra.
Qed.

Lemma bigsum_zero (n : nat) (f : nat -> Q) :
  (forall i, (i < n)%nat -> f i == 0) -> Spec.bigsum n f == 0.
Proof.
  induction n as [|n IH]; intros H; simpl; [reflexivity|].
  rewrite IH, (H n) by (intros; auto with lia). reflexivity.
Qed.

Lemma hinge_zero (a : Q) : a <= 0 -> (Qmax 0 a) ^ 2 == 0.
Proof. intros H. rewrite (Q.max_l 0 a H). reflexivity. Qed.

Lemma feasible_no_penalty (n : nat) (z v : ndarray) :
  Spec.feasible n z v -> Spec.total_penalty n z v == 0.
Proof.
  intros [Hi Hs].
  unfold Spec.total_penalty, Spec.penalty_alloc_bounds,
    Spec.penalty_total_alloc, Spec.penalty_payment_nonneg, Spec.penalty_ir.
  assert (forall f : nat -> Q,
            (forall i, (i < n)%nat -> f i <= 0) ->
            Spec.bigsum n (fun i => (Qmax 0 (f i)) ^ 2) == 0) as Hzero
    by (intros f Hf; apply bigsum_zero; intros i Hlt; apply hinge_zero; auto).
  rewrite !Hzero, hinge_zero; [reflexivity | ..]; try lra;
    intros i Hlt; destruct (Hi i Hlt) as (? & ? & ? & ?); lra.
Qed.

(** Whether [potential] returns does not depend on [mu], and its value
    never decreases when [mu] grows. *)
Lemma potential_mono (z v : ndarray) (mu1 mu2 r1 : Q) :
  mu1 <= mu2 -> potential z v mu1 = Some r1 ->
  exists r2, potential z v mu2 = Some r2 /\ r1 <= r2.
Proof.
  intros Hmu. unfold potential.
  destruct (Np.mul v (take (length v) z)) as [vx|]; [simpl|discriminate].
  destruct (Np.sub (drop (length v) z) vx) as [d|]; [simpl|discriminate].
  intros [= <-]. eexists. split; [reflexivity|].
  pose proof (sum_square_nonneg (Np.maximum0 (Np.neg (take (length v) z)))).
  pose proof (sum_square_nonneg
                (Np.maximum0 (Np.sub_scalar (take (length v) z) 1))).
  pose proof (sq_nonneg (Np.maximum0_scalar (Np.sum (take (length v) z) - 1))).
  pose proof (sum_square_nonneg (Np.maximum0 (Np.neg (drop (length v) z)))).
  pose proof (sum_square_nonneg (Np.maximum0 d)).
  apply Qplus_le_r, Qmult_le_compat_r; [|lra].
  apply Qmult_le_compat_r; [exact Hmu | discriminate].
Qed.



(** C5. For a fixed [z] that violates a constraint (the total penalty is
    positive) and [mu1 <= mu2], [potential z v mu1 <= potential z v mu2]. *)
Theorem potential_monotone_in_mu (n : nat) (z v : ndarray) (mu1 mu2 : Q) :
  length v = n -> length z = (2 * n)%nat ->
  0 < Spec.total_penalty n z v ->
  mu1 <= mu2 ->
  exists r1 r2,
    potential z v mu1 = Some r1 /\ potential z v mu2 = Some r2 /\ r1 <= r2.
Proof.
  intros Hv Hz _ Hmu.
  destruct (potential_spec n z v Hv Hz mu1) as [r1 [Hr1 _]].
  destruct (potential_mono z v mu1 mu2 r1 Hmu Hr1) as [r2 [Hr2 Hle]].
  now exists r1, r2.
Qed.

Lemma potential_monotone_in_mu_witness :
  exists r1 r2,
    potential [2; 1; 0; 0; 3; -1] [10; 20; 15] 1 = Some r1 /\
    potential [2; 1; 0; 0; 3; -1] [10; 20; 15] 100 = Some r2 /\ r1 <= r2.
Proof.
  apply (potential_monotone_in_mu 3); [reflexivity | reflexivity | | ];
    vm_compute; first [reflexivity | discriminate].
Defined.

(** ** [np.argmax]: first occurrence of the maximum *)

Lemma argmax_from_spec (l pre : ndarray) (best_i : nat) (best : Q) :
  pre !! best_i = Some best ->
  (forall j y, pre !! j = Some y -> y <= best) ->
  (forall j y, (j < best_i)%nat -> pre !! j = Some y -> y < best) ->
  first_max (pre ++ l) (Np.argmax_from best_i best (length pre) l).
Proof.
  revert pre best_i best.
  induction l as [|y l IH]; intros pre best_i best Hb Hmax Hfirst.
  - simpl. rewrite app_nil_r.
    assert (best_i < length pre)%nat as Hlt by (eapply lookup_lt_Some; eauto).
    rewrite <- (nth_lookup_Some _ _ 0 _ Hb) in Hmax, Hfirst.
    repeat split; [exact Hlt | |].
    + intros j Hj. destruct (nth_lookup_or_length pre j 0); [eauto | lia].
    + intros j Hj. destruct (nth_lookup_or_length pre j 0); [eauto | lia].
  - simpl. replace (pre ++ y :: l) with ((pre ++ [y]) ++ l)
      by now rewrite <- app_assoc.
    replace (S (length pre)) with (length (pre ++ [y]))
      by (rewrite length_app; simpl; lia).
    destruct (Qcompare y best) eqn:Hc.
    + apply Qeq_alt in Hc. apply IH.
      * now apply lookup_app_l_Some.
      * intros j t Hj. apply lookup_app_Some in Hj as [Hj|[_ Hj]]; [eauto|].
        apply list_lookup_singleton_Some in Hj as [_ <-]. lra.
      * intros j t Hlt Hj.
        apply lookup_app_Some in Hj as [Hj|[Hge _]]; [eauto|].
        apply lookup_lt_Some in Hb. lia.
    + apply Qlt_alt in Hc. apply IH.
      * now apply lookup_app_l_Some.
      * intros j t Hj. apply lookup_app_Some in Hj as [Hj|[_ Hj]]; [eauto|].
        apply list_lookup_singleton_Some in Hj as [_ <-]. lra.
      * intros j t Hlt Hj.
        apply lookup_app_Some in Hj as [Hj|[Hge _]]; [eauto|].
        apply lookup_lt_Some in Hb. lia.
    + apply Qgt_alt in Hc. apply IH.
      * rewrite lookup_app_r, Nat.sub_diag by lia. reflexivity.
      * intros j t Hj. apply lookup_app_Some in Hj as [Hj|[_ Hj]].
        -- specialize (Hmax j t Hj). lra.
        -- apply list_lookup_singleton_Some in Hj as [_ <-]. lra.
      * intros j t Hlt Hj.
        apply lookup_app_Some in Hj as [Hj|[Hge _]]; [|lia].
        specialize (Hmax j t Hj). lra.
Qed.

Lemma argmax_first_max (v : ndarray) :
  v <> [] -> exists k, Np.argmax v = Some k /\ first_max v k.
Proof.
  destruct v as [|y l]; [congruence|]. intros _.
  eexists. split; [reflexivity|].
  apply (argmax_from_spec l [y] 0 y); [reflexivity | |].
  - intros j t Hj. apply list_lookup_singleton_Some in Hj as [_ <-]. lra.
  - intros j t Hlt. lia.
Qed.

Lemma first_max_unique (v : ndarray) (k k' : nat) :
  first_max v k -> first_max v k' -> k = k'.
Proof.
  intros (Hk & Hmax & Hfirst) (Hk' & Hmax' & Hfirst').
  destruct (Nat.lt_trichotomy k k') as [Hlt|[Heq|Hlt]]; [|exact Heq|].
  - specialize (Hfirst' k Hlt). specialize (Hmax k' Hk'). lra.
  - specialize (Hfirst k' Hlt). specialize (Hmax' k Hk). lra.
Qed.

Lemma argmax_is_first_max (v : ndarray) (k : nat) :
  first_max v k -> Np.argmax v = Some k.
Proof.
  intros Hk. destruct (argmax_first_max v) as [k' [Hk' Hfm]].
  - destruct Hk as [Hlt _]. destruct v; [simpl in Hlt; lia | congruence].
  - now rewrite (first_max_unique v k k' Hk Hfm).
Qed.

(** ** The analytical oracle *)

(** The vector with [a] at index [k] and zero elsewhere. *)
Lemma lookup_unit_vector (n k i : nat) (a : Q) :
  (k < n)%nat -> (i < n)%nat ->
  <[k := a]> (Np.zeros n) !! i = Some (if Nat.eqb i k then a else 0).
Proof.
  intros Hk Hi. unfold Np.zeros. destruct (Nat.eqb_spec i k) as [->|Hne].
  - apply list_lookup_insert_eq. now rewrite length_replicate.
  - rewrite list_lookup_insert_ne by congruence.
    now apply lookup_replicate_2.
Qed.

Lemma bigsum_indicator (n k : nat) (a : Q) :
  (k < n)%nat -> Spec.bigsum n (fun i => if Nat.eqb i k then a else 0) == a.
Proof.
  induction n as [|n IH]; intros Hk; [lia|]. simpl.
  destruct (Nat.eqb_spec n k) as [->|Hne].
  - rewrite bigsum_zero; [ring|].
    intros i Hi. destruct (Nat.eqb_spec i k); [lia | reflexivity].
  - rewrite IH by lia. ring.
Qed.

Lemma sum_unit_vector (n k : nat) (a : Q) :
  (k < n)%nat -> Np.sum (<[k := a]> (Np.zeros n)) == a.
Proof.
  intros Hk.
  rewrite (sum_bigsum _ n (fun i => if Nat.eqb i k then a else 0)).
  - now apply bigsum_indicator.
  - unfold Np.zeros. now rewrite length_insert, length_replicate.
  - intros i Hi. now apply lookup_unit_vector.
Qed.

Section Oracle.
Variables (v : ndarray) (k : nat).
Hypothesis Hfm : first_max v k.

Let n := length v.
Let z_star := <[k := 1]> (Np.zeros n) ++ <[k := nth k v 0]> (Np.zeros n).

Lemma analytical_first_max : analytical_optimal_solution v = Some z_star.
Proof.
  unfold analytical_optimal_solution.
  rewrite (argmax_is_first_max v k Hfm). simpl.
  destruct Hfm as [Hk _].
  destruct (nth_lookup_or_length v k 0) as [->|]; [reflexivity | lia].
Qed.

Lemma length_z_star : length z_star = (2 * n)%nat.
Proof.
  unfold z_star, Np.zeros.
  rewrite length_app, !length_insert, !length_replicate. lia.
Qed.

Lemma nth_x_star (i : nat) :
  (i < n)%nat -> nth i z_star 0 = if Nat.eqb i k then 1 else 0.
Proof.
  intros Hi. apply nth_lookup_Some. unfold z_star.
  rewrite lookup_app_l
    by (unfold Np.zeros; now rewrite length_insert, length_replicate).
  apply lookup_unit_vector; [apply Hfm | exact Hi].
Qed.

Lemma nth_p_star (i : nat) :
  (i < n)%nat -> nth (n + i) z_star 0 = if Nat.eqb i k then nth k v 0 else 0.
Proof.
  intros Hi. apply nth_lookup_Some. unfold z_star.
  assert (length (<[k := 1]> (Np.zeros n)) = n) as Hl
    by (unfold Np.zeros; now rewrite length_insert, length_replicate).
  rewrite lookup_app_r by lia. rewrite Hl.
  replace (n + i - n)%nat with i by lia.
  apply lookup_unit_vector; [apply Hfm | exact Hi].
Qed.

Lemma revenue_star : Np.sum (drop n z_star) == nth k v 0.
Proof.
  unfold z_star.
  assert (length (<[k := 1]> (Np.zeros n)) = n) as Hl
    by (unfold Np.zeros; now rewrite length_insert, length_replicate).
  rewrite <- Hl at 1. rewrite drop_app_length.
  apply sum_unit_vector, Hfm.
Qed.

(** What the oracle returns when [k] is the first index of the maximum. *)
Lemma analytical_shape :
  exists z,
    analytical_optimal_solution v = Some z /\
    length z = (2 * length v)%nat /\
    (forall i, (i < length v)%nat ->
       nth i z 0 = (if Nat.eqb i k then 1 else 0) /\
       nth (length v + i) z 0 = (if Nat.eqb i k then nth k v 0 else 0)) /\
    Np.sum (drop (length v) z) == nth k v 0.
Proof.
  exists z_star. split; [apply analytical_first_max|].
  split; [apply length_z_star|]. split; [|apply revenue_star].
  intros i Hi. split; [now apply nth_x_star | now apply nth_p_star].
Qed.

Lemma star_feasible : 0 <= nth k v 0 -> Spec.feasible n z_star v.
Proof.
  intros Hpos. split.
  - intros i Hi. unfold Spec.x_, Spec.p_, Spec.v_.
    rewrite (nth_x_star i Hi), (nth_p_star i Hi).
    destruct (Nat.eqb_spec i k) as [->|Hne]; lra.
  - rewrite (bigsum_ext n _ (fun i => if Nat.eqb i k then 1 else 0)).
    + rewrite bigsum_indicator by apply Hfm. lra.
    + intros i Hi. unfold Spec.x_. now rewrite nth_x_star.
Qed.
End Oracle.

(** C2. For a non-empty [v] whose maximum is attained at exactly one
    index [k], the oracle returns a vector of length [2n] with allocation
    1 at [k] and 0 elsewhere and payment [v_k] at [k] and 0 elsewhere (so
    the revenue [sum(p)] is [v_k]); for [v = [5]] it returns [x = [1]],
    [p = [5]] with revenue 5. *)
Theorem analytical_unique_maximum (v : ndarray) (k : nat) :
  (k < length v)%nat ->
  (forall j, (j < length v)%nat -> j <> k -> nth j v 0 < nth k v 0) ->
  (exists z,
     analytical_optimal_solution v = Some z /\
     length z = (2 * length v)%nat /\
     (forall i, (i < length v)%nat ->
        nth i z 0 = (if Nat.eqb i k then 1 else 0) /\
        nth (length v + i) z 0 = (if Nat.eqb i k then nth k v 0 else 0)) /\
     Np.sum (drop (length v) z) == nth k v 0) /\
  analytical_optimal_solution [5] = Some [1; 5] /\
  Np.sum (drop 1 [1; 5]) == 5.
Proof.
  intros Hk Huniq. split; [|split; reflexivity].
  apply analytical_shape. split; [exact Hk|]. split.
  - intros j Hj. destruct (Nat.eq_dec j k) as [->|Hne]; [lra|].
    apply Qlt_le_weak; auto.
  - intros j Hj. apply Huniq; lia.
Qed.

Lemma analytical_unique_maximum_witness :
  exists z,
    analytical_optimal_solution [10; 20; 15] = Some z /\
    nth 1 z 0 = 1 /\ nth 4 z 0 = 20.
Proof.
  destruct (analytical_unique_maximum [10; 20; 15] 1) as [[z (Hz & _ & Hi & _)] _].
  - simpl. lia.
  - intros [|[|[|j]]] Hj Hne; simpl in *; [reflexivity | lia | reflexivity | lia].
  - exists z. split; [exact Hz|]. apply (Hi 1%nat). simpl. lia.
Defined.

(** C3. When two or more bidders share the maximum valuation, the oracle
    picks the smallest index [k] attaining it: allocation 1 and payment
    equal to the maximum at [k], zero at every other index.  The oracle is
    a function of [v] only, so every call gives this same vector. *)
Theorem analytical_tie_lowest_index (v : ndarray) (k : nat) :
  (k < length v)%nat ->
  (forall j, (j < length v)%nat -> nth j v 0 <= nth k v 0) ->
  (forall j, (j < k)%nat -> ~ nth j v 0 == nth k v 0) ->
  (exists j, (j < length v)%nat /\ j <> k /\ nth j v 0 == nth k v 0) ->
  exists z,
    analytical_optimal_solution v = Some z /\
    length z = (2 * length v)%nat /\
    (forall i, (i < length v)%nat ->
       nth i z 0 = (if Nat.eqb i k then 1 else 0) /\
       nth (length v + i) z 0 = (if Nat.eqb i k then nth k v 0 else 0)).
Proof.
  intros Hk Hmax Hlow _.
  destruct (analytical_shape v k) as [z (Hz & Hl & Hi & _)].
  - split; [exact Hk|]. split; [exact Hmax|].
    intros j Hj. specialize (Hmax j ltac:(lia)). specialize (Hlow j Hj).
    apply Qle_lteq in Hmax. tauto.
  - now exists z.
Qed.

Lemma analytical_tie_lowest_index_witness :
  exists z,
    analytical_optimal_solution [10; 20; 15; 20] = Some z /\
    nth 1 z 0 = 1 /\ nth 3 z 0 = 0 /\ nth 5 z 0 = 20 /\ nth 7 z 0 = 0.
Proof.
  destruct (analytical_tie_lowest_index [10; 20; 15; 20] 1) as [z (Hz & _ & Hi)].
  - simpl. lia.
  - intros [|[|[|[|j]]]] Hj; simpl in *; try lia; vm_compute; discriminate.
  - intros [|j] Hj; [|lia]. vm_compute. discriminate.
  - exists 3%nat. split; [simpl; lia|]. split; [lia | reflexivity].
  - exists z. split; [exact Hz|].
    pose proof (Hi 1%nat ltac:(simpl; lia)) as [H1 H5].
    pose proof (Hi 3%nat ltac:(simpl; lia)) as [H3 H7].
    repeat split; assumption.
Defined.

(** C10. For a non-empty [v] with non-negative entries and any [mu], the
    oracle's vector is feasible and the potential there is [-max(v)]. *)
Theorem potential_at_analytical_optimum (v : ndarray) (mu : Q) :
  v <> [] -> Forall (Qle 0) v ->
  exists z r m,
    analytical_optimal_solution v = Some z /\
    potential z v mu = Some r /\
    r == - m /\
    In m v /\ Forall (fun y => y <= m) v /\
    Spec.feasible (length v) z v.
Proof.
  intros Hne Hpos.
  destruct (argmax_first_max v Hne) as [k [_ Hfm]].
  pose proof Hfm as (Hk & Hmax & _).
  assert (In (nth k v 0) v) as Hin by now apply nth_In.
  assert (0 <= nth k v 0) as Hvk
    by (rewrite Forall_forall in Hpos; apply Hpos, list_elem_of_In, Hin).
  pose proof (star_feasible v k Hfm Hvk) as Hfeas.
  pose proof (length_z_star v k) as Hlen.
  eexists _, _, (nth k v 0).
  split; [apply (analytical_first_max v k Hfm)|].
  split; [apply (potential_shaped (length v) _ v eq_refl Hlen)|].
  split; [|split; [exact Hin|split; [|exact Hfeas]]].
  - rewrite (penalty_of_spec (length v) _ v eq_refl Hlen).
    rewrite (feasible_no_penalty _ _ _ Hfeas), (revenue_star v k Hfm). ring.
  - apply Forall_forall. intros y Hy. apply list_elem_of_In in Hy.
    destruct (In_nth v y 0 Hy) as [j [Hj <-]]. now apply Hmax.
Qed.

Lemma potential_at_analytical_optimum_witness :
  exists z r,
    analytical_optimal_solution [10; 20; 15] = Some z /\
    potential z [10; 20; 15] 100 = Some r /\ r == -20.
Proof.
  destruct (potential_at_analytical_optimum [10; 20; 15] 100)
    as (z & r & m & Hz & Hr & Hm & Hin & Hall & _).
  - discriminate.
  - repeat constructor; discriminate.
  - exists z, r. split; [exact Hz|]. split; [exact Hr|].
    rewrite Hm.
    assert (20 <= m) as Hge
      by (rewrite Forall_forall in Hall; apply Hall, list_elem_of_In; simpl; tauto).
    simpl in Hin. destruct Hin as [<-|[<-|[<-|[]]]]; try reflexivity;
      exfalso; revert Hge; vm_compute; tauto.
Defined.

(** ** The driver *)

Lemma split_nonempty (sep : ascii) (s : string) : Str.split sep s <> [].
Proof.
  induction s as [|c s IH]; simpl; [discriminate|].
  destruct (Ascii.eqb c sep); [discriminate|].
  destruct (Str.split sep s); [congruence | discriminate].
Qed.

Section DriverFacts.
Variable py_float : string -> option Q.
Variable steepest_descent :
  (ndarray -> option Q) -> ndarray -> Q -> Q -> Z -> outcome ndarray.
Variable newton :
  (ndarray -> option Q) -> ndarray -> Q -> Z -> outcome ndarray.

Let parse := parse_valuations py_float.
Let run := main py_float steepest_descent newton.

(** A bad token makes the comprehension raise. *)
Lemma parse_bad_token (s tok : string) :
  In tok (Str.split "," s) -> py_float (Str.strip tok) = None ->
  parse s = None.
Proof.
  intros Hin Hbad. apply mapM_None_2, Exists_exists.
  exists tok. split; [now apply list_elem_of_In | exact Hbad].
Qed.

(** A parsed valuation vector has at least one entry. *)
Lemma parse_nonempty (s : string) (v : ndarray) :
  parse s = Some v -> v <> [].
Proof.
  intros H. apply mapM_Some_1, Forall2_length in H.
  pose proof (split_nonempty "," s) as Hne.
  destruct v; [|discriminate].
  destruct (Str.split "," s); [congruence | discriminate].
Qed.

Lemma main_parse_error (a : args) (log : list event) :
  parse (valuations a) = None -> run a log = (Raise parse_error, log).
Proof.
  intros H. unfold run, main. fold parse. rewrite H. reflexivity.
Qed.

Ltac run_main :=
  cbv beta iota zeta delta
    [mbind mret M_bind M_ret print emit call_steepest_descent call_newton
     from_outcome from_option raise try_except app].

Section Run.
Variables (a : args) (v z_sd z_opt : ndarray) (f_sd : Q).
Let n := length v.
Let potential_func := fun z : ndarray => potential z v (mu a).
Let z0 := initial_guess n.
Hypothesis Hparse : parse (valuations a) = Some v.
Hypothesis Hsd :
  steepest_descent potential_func z0 (alpha a) (tol a) (max_iter a)
  = Return z_sd.
Hypothesis Hf_sd : potential_func z_sd = Some f_sd.
Hypothesis Hopt : analytical_optimal_solution v = Some z_opt.

Let revenue_sd := Np.sum (drop n z_sd).
Let optimal_revenue := Np.sum (drop n z_opt).

(** Everything up to the call of Newton's method. *)
Let log_sd : list event :=
  [Print Banner; Print (BidderValuations v); Print (InitialGuess z0);
   Print RunningSteepestDescent;
   CallSteepestDescent potential_func z0 (alpha a) (tol a) (max_iter a);
   Print (SDSolution z_sd); Print (SDPotential f_sd);
   Print (SDRevenue revenue_sd); Print RunningNewton;
   CallNewton potential_func z0 (tol a) (max_iter_newton a)].

(** The analytical solution and the steepest-descent comparison. *)
Let log_report : list event :=
  [Print AnalyticalHeader; Print (AnalyticalOptimal z_opt);
   Print (OptimalRevenue optimal_revenue); Print ComparisonHeader;
   Print (SDRevenueError (Qabs (optimal_revenue - revenue_sd)))].

Lemma main_newton_returns (z_newton : ndarray) (f_newton : Q) :
  newton potential_func z0 (tol a) (max_iter_newton a) = Return z_newton ->
  potential_func z_newton = Some f_newton ->
  run a [] =
  (Return tt,
   log_sd
   ++ [Print (NewtonSolution z_newton); Print (NewtonPotential f_newton);
       Print (NewtonRevenue (Np.sum (drop n z_newton)))]
   ++ log_report
   ++ [Print (NewtonRevenueError
                (Qabs (optimal_revenue - Np.sum (drop n z_newton))))]).
Proof.
  intros Hnt Hf. unfold run, main. fold parse. rewrite Hparse.
  unfold potential_func, z0, n in *. run_main.
  rewrite Hsd, Hf_sd, Hnt, Hf, Hopt. reflexivity.
Qed.

Lemma main_newton_raises (e : exn) :
  newton potential_func z0 (tol a) (max_iter_newton a) = Raise e ->
  run a [] =
  (Return tt,
   log_sd ++ [Print (NewtonFailed e)] ++ log_report
   ++ [Print NewtonNoSolution]).
Proof.
  intros Hnt. unfold run, main. fold parse. rewrite Hparse.
  unfold potential_func, z0, n in *. run_main.
  rewrite Hsd, Hf_sd, Hnt, Hopt. reflexivity.
Qed.

(** Newton's method returns a vector on which the objective raises:
    the handler treats it like a failed solver. *)
Lemma main_newton_bad_shape (z_newton : ndarray) :
  newton potential_func z0 (tol a) (max_iter_newton a) = Return z_newton ->
  potential_func z_newton = None ->
  run a [] =
  (Return tt,
   log_sd
   ++ [Print (NewtonSolution z_newton); Print (NewtonFailed broadcast_error)]
   ++ log_report ++ [Print NewtonNoSolution]).
Proof.
  intros Hnt Hf. unfold run, main. fold parse. rewrite Hparse.
  unfold potential_func, z0, n in *. run_main.
  rewrite Hsd, Hf_sd, Hnt, Hf, Hopt. reflexivity.
Qed.
End Run.

(** Once the valuations parse, steepest descent is called, whatever
    [mu] is. *)
Lemma main_calls_steepest_descent (a : args) (v : ndarray) :
  parse (valuations a) = Some v ->
  In (CallSteepestDescent (fun z => potential z v (mu a))
        (initial_guess (length v)) (alpha a) (tol a) (max_iter a))
     (run a []).2.
Proof.
  intros Hparse. unfold run, main. fold parse. rewrite Hparse. run_main.
  destruct (steepest_descent _ _ _ _ _) as [z_sd|e]; [|simpl; tauto].
  destruct (potential z_sd v (mu a)) as [f_sd|]; [|simpl; tauto].
  destruct (newton _ _ _ _) as [z_n|e];
    [destruct (potential z_n v (mu a)) as [f_n|]|];
    destruct (analytical_optimal_solution v); simpl; tauto.
Qed.
End DriverFacts.

Lemma solver_call_not_rejected (r : outcome unit * list event) (ev : event) :
  In ev r.2 -> is_solver_call ev = true -> ~ rejected r.
Proof.
  intros Hin Hcall [_ Hall]. rewrite Forall_forall in Hall.
  apply list_elem_of_In, Hall in Hin. congruence.
Qed.

(** ** The initial guess *)



(** A vector of [n] equal allocations [c] in [[0, 1]] and [n] zero
    payments, against non-negative valuations. *)
Section UniformGuess.
Variables (n : nat) (v : ndarray) (c : Q).
Hypothesis Hv : length v = n.
Hypothesis Hpos : Forall (Qle 0) v.
Hypothesis Hc0 : 0 <= c.
Hypothesis Hc1 : c <= 1.

Let z := replicate n c ++ Np.zeros n.







End UniformGuess.




(** In binary64 the twenty allocations [1/20] of the initial guess add
    up to the next number after 1, whether they are added left to right or
    with NumPy's partial sums; with twenty valuations equal to 1 and
    [mu = 100] the potential at the initial guess is then positive. *)
Lemma binary64_initial_guess_sum_exceeds_one :
  Binary64.sum_loop (take 20 (Binary64.initial_guess 20))
  = PrimFloat.next_up (Binary64.f64 1) /\
  Binary64.sum_pairwise (take 20 (Binary64.initial_guess 20))
  = PrimFloat.next_up (Binary64.f64 1) /\
  exists r,
    Binary64.potential Binary64.sum_pairwise (Binary64.initial_guess 20)
      (Binary64.ones 20) (Binary64.f64 100) = Some r /\
    PrimFloat.ltb (Binary64.f64 0) r = true.
Proof.
  split; [vm_compute; reflexivity|]. split; [vm_compute; reflexivity|].
  eexists. split; vm_compute; reflexivity.
Qed.

(** C6. If some comma-separated token of [--valuations] is not accepted by
    [float], [main] raises the [ValueError] that names the expected format
    and nothing has happened before: no line is printed and neither solver
    is called.  The tokens of ["10,abc,15"] are ["10"], ["abc"], ["15"]. *)
Theorem main_rejects_malformed_valuations
    (py_float : string -> option Q)
    (steepest_descent :
       (ndarray -> option Q) -> ndarray -> Q -> Q -> Z -> outcome ndarray)
    (newton : (ndarray -> option Q) -> ndarray -> Q -> Z -> outcome ndarray)
    (a : args) (tok : string) :
  In tok (Str.split "," (valuations a)) ->
  py_float (Str.strip tok) = None ->
  main py_float steepest_descent newton a [] = (Raise parse_error, []) /\
  rejected (main py_float steepest_descent newton a []) /\
  exn_class parse_error = "ValueError"%string /\
  Str.strip <$> Str.split "," "10,abc,15" = ["10"; "abc"; "15"]%string.
Proof.
  intros Hin Hbad.
  pose proof (main_parse_error py_float steepest_descent newton a []
                (parse_bad_token py_float _ _ Hin Hbad)) as Hrun.
  split; [exact Hrun|]. split; [|split; reflexivity].
  rewrite Hrun. split; [now exists parse_error | constructor].
Qed.

Lemma main_rejects_malformed_valuations_witness :
  main Example.float Example.sd_stay Example.newton_stay
    (Example.cli "10,abc,15" 100) []
  = (Raise parse_error, []).
Proof.
  apply (main_rejects_malformed_valuations Example.float Example.sd_stay
           Example.newton_stay (Example.cli "10,abc,15" 100) "abc").
  - simpl. tauto.
  - reflexivity.
Defined.

(** C7, amended. Assume the valuations parse to [v], steepest descent
    returns a solution vector and Newton's method, when it returns, returns
    a solution vector (length [2n]).  Then [main] finishes normally and
    prints the analytical solution and the steepest-descent revenue error.
    If Newton's method raises [e], the failure is printed, the
    no-solution line is printed and no Newton revenue error is.  The
    Newton revenue error is printed exactly when Newton's method returned
    a vector. *)
Theorem newton_failure_is_contained
    (py_float : string -> option Q)
    (steepest_descent :
       (ndarray -> option Q) -> ndarray -> Q -> Q -> Z -> outcome ndarray)
    (newton : (ndarray -> option Q) -> ndarray -> Q -> Z -> outcome ndarray)
    (a : args) (v z_sd : ndarray) :
  let potential_func := fun z : ndarray => potential z v (mu a) in
  let z0 := initial_guess (length v) in
  let newton_result := newton potential_func z0 (tol a) (max_iter_newton a) in
  let r := main py_float steepest_descent newton a [] in
  parse_valuations py_float (valuations a) = Some v ->
  steepest_descent potential_func z0 (alpha a) (tol a) (max_iter a)
  = Return z_sd ->
  length z_sd = (2 * length v)%nat ->
  (forall z, newton_result = Return z -> length z = (2 * length v)%nat) ->
  r.1 = Return tt /\
  (exists z_opt,
     analytical_optimal_solution v = Some z_opt /\
     In (Print (AnalyticalOptimal z_opt)) r.2 /\
     In (Print (SDRevenueError
                  (Qabs (Np.sum (drop (length v) z_opt)
                         - Np.sum (drop (length v) z_sd))))) r.2) /\
  (forall e, newton_result = Raise e ->
     In (Print (NewtonFailed e)) r.2 /\ In (Print NewtonNoSolution) r.2 /\
     ~ exists err, In (Print (NewtonRevenueError err)) r.2) /\
  ((exists err, In (Print (NewtonRevenueError err)) r.2)
   <-> exists z, newton_result = Return z) /\
  (In (Print NewtonNoSolution) r.2 <-> exists e, newton_result = Raise e).
Proof.
  intros potential_func z0 newton_result r Hparse Hsd Hlen Hshape.
  pose proof (parse_nonempty py_float _ _ Hparse) as Hne.
  destruct (argmax_first_max v Hne) as [k [_ Hfm]].
  pose proof (analytical_first_max v k Hfm) as Hopt.
  pose proof (potential_shaped (length v) z_sd v eq_refl Hlen (mu a)) as Hf_sd.
  destruct newton_result as [z_n|e] eqn:Hnt.
  - pose proof (potential_shaped (length v) z_n v eq_refl
                  (Hshape z_n eq_refl) (mu a)) as Hf_n.
    pose proof (main_newton_returns py_float steepest_descent newton a v z_sd
                  _ _ Hparse Hsd Hf_sd Hopt z_n _ Hnt Hf_n) as Hrun.
    subst r. rewrite Hrun. cbn [fst snd].
    split; [reflexivity|]. split; [|split; [|split]].
    + eexists. split; [exact Hopt|]. simpl. tauto.
    + intros e [=].
    + split; [intros _; now exists z_n|]. intros _. eexists. simpl. tauto.
    + split; [|intros [e [=]]]. simpl. intuition discriminate.
  - pose proof (main_newton_raises py_float steepest_descent newton a v z_sd
                  _ _ Hparse Hsd Hf_sd Hopt e Hnt) as Hrun.
    subst r. rewrite Hrun. cbn [fst snd].
    split; [reflexivity|]. split; [|split; [|split]].
    + eexists. split; [exact Hopt|]. simpl. tauto.
    + intros e' [= <-]. repeat split; [simpl; tauto .. |].
      intros [err Herr]. simpl in Herr. intuition discriminate.
    + split; [|intros [z [=]]].
      intros [err Herr]. simpl in Herr. intuition discriminate.
    + split; [intros _; now exists e|]. intros _. simpl. tauto.
Qed.

Lemma newton_failure_is_contained_witness :
  (main Example.float Example.sd_stay Example.newton_singular
     (Example.cli "10,20,15" 100) []).1 = Return tt /\
  In (Print NewtonNoSolution)
     (main Example.float Example.sd_stay Example.newton_singular
        (Example.cli "10,20,15" 100) []).2.
Proof.
  destruct (newton_failure_is_contained Example.float Example.sd_stay
              Example.newton_singular (Example.cli "10,20,15" 100)
              [10; 20; 15] (initial_guess 3))
    as (Hret & _ & Hfail & _).
  - reflexivity.
  - reflexivity.
  - reflexivity.
  - intros z [=].
  - split; [exact Hret|]. now apply (Hfail (Exn "LinAlgError" "Singular matrix")).
Defined.

(** C9 (as stated) fails: with [mu = -1] and valuations ["10,20,15"] the
    run is not refused; the solvers are called and [main] finishes. *)
Lemma nonpositive_mu_not_rejected :
  mu (Example.cli "10,20,15" (-1)) <= 0 /\
  ~ rejected (main Example.float Example.sd_stay Example.newton_stay
                (Example.cli "10,20,15" (-1)) []).
Proof.
  split; [discriminate|].
  eapply solver_call_not_rejected;
    [apply (main_calls_steepest_descent Example.float Example.sd_stay
              Example.newton_stay (Example.cli "10,20,15" (-1)) [10; 20; 15]);
     reflexivity
    | reflexivity].
Qed.

(** C9, amended. [main] does not validate [mu]: for every [mu], positive
    or not, once the valuations parse to [v] the run is not refused and
    steepest descent is called on the objective [potential(., v, mu)] from
    the initial guess.  A parsed valuation vector is never empty. *)
Theorem main_does_not_validate_mu
    (py_float : string -> option Q)
    (steepest_descent :
       (ndarray -> option Q) -> ndarray -> Q -> Q -> Z -> outcome ndarray)
    (newton : (ndarray -> option Q) -> ndarray -> Q -> Z -> outcome ndarray)
    (a : args) (v : ndarray) :
  parse_valuations py_float (valuations a) = Some v ->
  (1 <= length v)%nat /\
  In (CallSteepestDescent (fun z => potential z v (mu a))
        (initial_guess (length v)) (alpha a) (tol a) (max_iter a))
     (main py_float steepest_descent newton a []).2 /\
  ~ rejected (main py_float steepest_descent newton a []).
Proof.
  intros Hparse.
  pose proof (main_calls_steepest_descent py_float steepest_descent newton
                a v Hparse) as Hcall.
  split; [|split; [exact Hcall|]].
  - pose proof (parse_nonempty py_float _ _ Hparse).
    destruct v; [congruence | simpl; lia].
  - eapply solver_call_not_rejected; [exact Hcall | reflexivity].
Qed.

Lemma main_does_not_validate_mu_witness :
  ~ rejected (main Example.float Example.sd_stay Example.newton_stay
                (Example.cli "10,20,15" 0) []).
Proof.
  apply (main_does_not_validate_mu Example.float Example.sd_stay
           Example.newton_stay (Example.cli "10,20,15" 0) [10; 20; 15]).
  reflexivity.
Defined.

(** * Further properties of the code *)

(** ** Shapes accepted by [potential] *)

Lemma broadcast_is_Some (f : Q -> Q -> Q) (a b : ndarray) :
  is_Some (Np.broadcast f a b)
  <-> (length a = length b \/ length b = 1 \/ length a = 1)%nat.
Proof.
  unfold Np.broadcast. destruct (Nat.eqb_spec (length a) (length b)) as [He|Hne].
  - split; [tauto | eauto].
  - destruct a as [|a0 [|a1 a]], b as [|b0 [|b1 b]]; simpl in *;
      split; intros H; try (now eauto); try lia;
      try (destruct H as [? [=]]); try (destruct H as [|[|]]; lia).
Qed.

Lemma broadcast_length (f : Q -> Q -> Q) (a b c : ndarray) :
  Np.broadcast f a b = Some c ->
  length c = if Nat.eqb (length a) (length b) then length a
             else if Nat.eqb (length b) 1 then length a else length b.
Proof.
  unfold Np.broadcast. destruct (Nat.eqb_spec (length a) (length b)) as [He|Hne].
  - intros [= <-]. rewrite length_zip_with. lia.
  - destruct a as [|a0 [|a1 a]], b as [|b0 [|b1 b]]; cbn [length] in *;
      intros H; cbv beta match in H; try discriminate H; try lia;
      injection H as <-; rewrite ?length_fmap; try reflexivity;
      cbn [length Nat.eqb]; do 2 f_equal; exact (length_fmap _ _).
Qed.

Lemma potential_is_Some (z v : ndarray) (mu : Q) :
  is_Some (potential z v mu)
  <-> exists vx, Np.mul v (take (length v) z) = Some vx
                 /\ is_Some (Np.sub (drop (length v) z) vx).
Proof.
  unfold potential.
  destruct (Np.mul v (take (length v) z)) as [vx|]; simpl.
  - destruct (Np.sub (drop (length v) z) vx) as [d|] eqn:Hs; simpl.
    + split; [intros _; exists vx; rewrite Hs; eauto | eauto].
    + split; [intros [? [=]] | intros (vx' & [= <-] & Hsome)].
      rewrite Hs in Hsome. destruct Hsome as [? [=]].
  - split; [intros [? [=]] | intros (? & [=] & _)].
Qed.

(** X1. With at least two bidders, [potential] returns exactly when [z]
    has length [2n] or [n + 1] (a single payment, broadcast against every
    bidder); on every other length NumPy's broadcasting raises. *)
Theorem potential_shape_check (z v : ndarray) (mu : Q) :
  (2 <= length v)%nat ->
  (is_Some (potential z v mu)
   <-> (length z = 2 * length v \/ length z = length v + 1)%nat).
Proof.
  intros Hn. rewrite potential_is_Some. split.
  - intros (vx & Hmul & Hsub).
    pose proof (broadcast_length _ _ _ _ Hmul) as Hl.
    assert (is_Some (Np.mul v (take (length v) z))) as Hm by eauto.
    apply broadcast_is_Some in Hm. apply broadcast_is_Some in Hsub.
    rewrite length_take in *. rewrite length_drop in Hsub.
    destruct (Nat.eqb_spec (length v) (length v `min` length z));
      destruct (Nat.eqb_spec (length v `min` length z) 1); lia.
  - intros Hz.
    assert (length (take (length v) z) = length v) as Hx
      by (rewrite length_take; lia).
    exists (zip_with Qmult v (take (length v) z)).
    split; [apply broadcast_same; lia|].
    apply broadcast_is_Some. rewrite length_zip_with, length_drop, Hx. lia.
Qed.

Lemma potential_shape_check_witness :
  is_Some (potential [1; 0; 7] [10; 20] 100)
  /\ ~ is_Some (potential [1; 0; 7; 0; 0] [10; 20] 100).
Proof.
  split.
  - apply (potential_shape_check [1; 0; 7] [10; 20] 100); simpl; lia.
  - intros H.
    apply (potential_shape_check [1; 0; 7; 0; 0] [10; 20] 100) in H;
      simpl in *; lia.
Defined.

(** X2. With a single bidder, [potential] never raises, whatever the
    length of [z]. *)
Theorem potential_single_bidder_total (z : ndarray) (v0 mu : Q) :
  is_Some (potential z [v0] mu).
Proof.
  rewrite potential_is_Some. simpl length.
  destruct (Np.mul [v0] (take 1 z)) as [vx|] eqn:Hmul.
  - exists vx. split; [reflexivity|].
    pose proof (broadcast_length _ _ _ _ Hmul) as Hl.
    apply broadcast_is_Some. rewrite length_drop, Hl, length_take. simpl.
    destruct z as [|z0 [|z1 z]]; simpl; lia.
  - assert (is_Some (Np.mul [v0] (take 1 z))) as [? Hs]
      by (apply broadcast_is_Some; simpl; lia).
    congruence.
Qed.

(** ** A lower bound *)

(** X4. For [mu >= 0], whenever [potential] returns, its value is at
    least the negated revenue [-sum(p)]: the penalty only ever adds. *)
Theorem potential_lower_bound (z v : ndarray) (mu r : Q) :
  0 <= mu -> potential z v mu = Some r ->
  - Np.sum (drop (length v) z) <= r.
Proof.
  intros Hmu. unfold potential.
  destruct (Np.mul v (take (length v) z)) as [vx|]; [simpl|discriminate].
  destruct (Np.sub (drop (length v) z) vx) as [d|]; [simpl|discriminate].
  intros [= <-].
  pose proof (sum_square_nonneg (Np.maximum0 (Np.neg (take (length v) z)))).
  pose proof (sum_square_nonneg
                (Np.maximum0 (Np.sub_scalar (take (length v) z) 1))).
  pose proof (sq_nonneg (Np.maximum0_scalar (Np.sum (take (length v) z) - 1))).
  pose proof (sum_square_nonneg (Np.maximum0 (Np.neg (drop (length v) z)))).
  pose proof (sum_square_nonneg (Np.maximum0 d)).
  assert (0 <= mu / 2) as Hh by (apply Qle_shift_div_l; lra).
  match goal with
  | |- _ <= _ + mu / 2 * ?P => assert (0 <= mu / 2 * P) by (apply Qmult_le_0_compat; lra)
  end.
  lra.
Qed.

Lemma potential_lower_bound_witness :
  - Np.sum (drop 3 [2; 1; 0; 0; 3; -1]) <= 596 # 2.
Proof.
  apply (potential_lower_bound [2; 1; 0; 0; 3; -1] [10; 20; 15] 100 (596 # 2)).
  - discriminate.
  - vm_compute. reflexivity.
Defined.

(** ** More on the analytical oracle *)

Lemma bigsum_single (n k : nat) (f : nat -> Q) :
  (k < n)%nat -> (forall i, (i < n)%nat -> i <> k -> f i == 0) ->
  Spec.bigsum n f == f k.
Proof.
  induction n as [|n IH]; intros Hk Hz; [lia|]. simpl.
  destruct (Nat.eq_dec k n) as [->|Hne].
  - rewrite bigsum_zero; [ring|]. intros i Hi. apply Hz; lia.
  - rewrite IH, (Hz n) by (intros; auto with lia). ring.
Qed.



Section OracleMore.
Variables (v : ndarray) (k : nat).
Hypothesis Hfm : first_max v k.

Let n := length v.
Let m := nth k v 0.
Let z_star := <[k := 1]> (Np.zeros n) ++ <[k := m]> (Np.zeros n).

Lemma allocation_star : Np.sum (take n z_star) == 1.
Proof.
  unfold z_star, m, n.
  rewrite (sum_x _ _ v eq_refl (length_z_star v k)).
  rewrite (bigsum_ext _ _ (fun i => if Nat.eqb i k then 1 else 0)).
  - apply bigsum_indicator, Hfm.
  - intros i Hi. unfold Spec.x_. now rewrite (nth_x_star v k Hfm i Hi).
Qed.

Lemma max_star : In m v /\ Forall (fun y => y <= m) v.
Proof.
  unfold m. destruct Hfm as (Hk & Hmax & _). split; [now apply nth_In|].
  apply Forall_forall. intros y Hy. apply list_elem_of_In in Hy.
  destruct (In_nth v y 0 Hy) as [j [Hj <-]]. now apply Hmax.
Qed.

(** The penalty at the oracle's vector: only payment non-negativity can
    be violated, when the maximum valuation is negative. *)
Lemma penalty_star : Spec.total_penalty n z_star v == (Qmax 0 (- m)) ^ 2.
Proof.
  pose proof Hfm as (Hk & _). unfold z_star, m, n in *.
  set (zs := <[k := 1]> (Np.zeros (length v))
             ++ <[k := nth k v 0]> (Np.zeros (length v))).
  assert (forall i, (i < length v)%nat ->
            Spec.x_ zs i = if Nat.eqb i k then 1 else 0) as Hx
    by (intros i Hi; apply (nth_x_star v k Hfm i Hi)).
  assert (forall i, (i < length v)%nat ->
            Spec.p_ (length v) zs i = if Nat.eqb i k then nth k v 0 else 0) as Hp
    by (intros i Hi; apply (nth_p_star v k Hfm i Hi)).
  unfold Spec.total_penalty, Spec.penalty_alloc_bounds,
    Spec.penalty_total_alloc, Spec.penalty_payment_nonneg, Spec.penalty_ir.
  assert (Spec.bigsum (length v) (Spec.x_ zs) == 1) as Hsum.
  { rewrite (bigsum_ext _ _ (fun i => if Nat.eqb i k then 1 else 0)).
    - apply bigsum_indicator, Hk.
    - intros i Hi. now rewrite Hx. }
  rewrite (bigsum_zero _ (fun i => (Qmax 0 (- Spec.x_ zs i)) ^ 2)).
  2:{ intros i Hi. apply hinge_zero. rewrite (Hx i Hi).
      destruct (Nat.eqb i k); lra. }
  rewrite (bigsum_zero _ (fun i => (Qmax 0 (Spec.x_ zs i - 1)) ^ 2)).
  2:{ intros i Hi. apply hinge_zero. rewrite (Hx i Hi).
      destruct (Nat.eqb i k); lra. }
  rewrite (hinge_zero (Spec.bigsum (length v) (Spec.x_ zs) - 1)) by lra.
  rewrite (bigsum_zero _
             (fun i => (Qmax 0 (Spec.p_ (length v) zs i
                                - Spec.v_ v i * Spec.x_ zs i)) ^ 2)).
  2:{ intros i Hi. apply hinge_zero. rewrite (Hx i Hi), (Hp i Hi).
      unfold Spec.v_. destruct (Nat.eqb_spec i k) as [->|]; lra. }
  rewrite (bigsum_single _ k
             (fun i => (Qmax 0 (- Spec.p_ (length v) zs i)) ^ 2) Hk).
  2:{ intros i Hi Hne. apply hinge_zero. rewrite (Hp i Hi).
      destruct (Nat.eqb_spec i k); [contradiction | lra]. }
  cbv beta. rewrite (Hp k Hk), Nat.eqb_refl. ring.
Qed.

Lemma potential_star (mu : Q) :
  exists r,
    potential z_star v mu = Some r /\
    r == - m + (mu / 2) * (Qmax 0 (- m)) ^ 2.
Proof.
  pose proof penalty_star as Hpen. unfold z_star, m, n in *.
  eexists.
  split; [apply (potential_shaped _ _ v eq_refl (length_z_star v k))|].
  rewrite (penalty_of_spec _ _ v eq_refl (length_z_star v k)).
  rewrite Hpen, (revenue_star v k Hfm). reflexivity.
Qed.
End OracleMore.

(** X6. The oracle returns a vector exactly when the valuation vector is
    non-empty; on an empty vector [np.argmax] raises. *)
Theorem analytical_returns_iff_nonempty (v : ndarray) :
  is_Some (analytical_optimal_solution v) <-> v <> [].
Proof.
  split.
  - intros [z Hz] ->. discriminate Hz.
  - intros Hne. destruct (argmax_first_max v Hne) as [k [_ Hfm]].
    rewrite (analytical_first_max v k Hfm). eauto.
Qed.

(** X7. For every non-empty valuation vector (ties and negative values
    included) the oracle's vector has length [2n], its allocations sum to
    exactly 1 and its revenue [sum(p)] is the maximum valuation. *)
Theorem analytical_allocates_whole_item (v : ndarray) :
  v <> [] ->
  exists z m,
    analytical_optimal_solution v = Some z /\
    length z = (2 * length v)%nat /\
    Np.sum (take (length v) z) == 1 /\
    Np.sum (drop (length v) z) == m /\
    In m v /\ Forall (fun y => y <= m) v.
Proof.
  intros Hne. destruct (argmax_first_max v Hne) as [k [_ Hfm]].
  eexists _, (nth k v 0).
  split; [apply (analytical_first_max v k Hfm)|].
  split; [apply length_z_star|].
  split; [apply (allocation_star v k Hfm)|].
  split; [apply (revenue_star v k Hfm)|].
  apply (max_star v k Hfm).
Qed.

Lemma analytical_allocates_whole_item_witness :
  exists z,
    analytical_optimal_solution [-3; -1; -2] = Some z /\
    Np.sum (take 3 z) == 1.
Proof.
  destruct (analytical_allocates_whole_item [-3; -1; -2])
    as (z & m & Hz & _ & Hx & _); [discriminate|].
  exists z. split; [exact Hz | exact Hx].
Defined.

(** X8. For every non-empty [v] and every [mu], the potential at the
    oracle's vector is [-m + (mu/2) * max(0, -m)^2] with [m = max(v)]:
    when every valuation is negative the oracle charges a negative
    payment and is penalised for it. *)
Theorem potential_at_oracle_any_sign (v : ndarray) (mu : Q) :
  v <> [] ->
  exists z r m,
    analytical_optimal_solution v = Some z /\
    potential z v mu = Some r /\
    In m v /\ Forall (fun y => y <= m) v /\
    r == - m + (mu / 2) * (Qmax 0 (- m)) ^ 2.
Proof.
  intros Hne. destruct (argmax_first_max v Hne) as [k [_ Hfm]].
  destruct (potential_star v k Hfm mu) as [r [Hr Hval]].
  destruct (max_star v k Hfm) as [Hin Hall].
  eexists _, r, (nth k v 0).
  split; [apply (analytical_first_max v k Hfm)|]. now repeat split.
Qed.

Lemma potential_at_oracle_any_sign_witness :
  exists z r,
    analytical_optimal_solution [-3; -1; -2] = Some z /\
    potential z [-3; -1; -2] 100 = Some r /\ r == 51.
Proof.
  destruct (potential_at_oracle_any_sign [-3; -1; -2] 100)
    as (z & r & m & Hz & Hr & Hin & Hall & Hval); [discriminate|].
  exists z, r. split; [exact Hz|]. split; [exact Hr|].
  assert (-1 <= m) as Hge
    by (rewrite Forall_forall in Hall; apply Hall, list_elem_of_In; simpl; tauto).
  rewrite Hval. simpl in Hin.
  destruct Hin as [<-|[<-|[<-|[]]]]; try (vm_compute; reflexivity);
    exfalso; revert Hge; vm_compute; tauto.
Defined.



(** ** Parsing the valuations *)

Lemma split_app_sep (sep : ascii) (s1 s2 : string) :
  Str.split sep (String.append s1 (String sep s2))
  = Str.split sep s1 ++ Str.split sep s2.
Proof.
  induction s1 as [|c s1 IH]; simpl.
  - now rewrite Ascii.eqb_refl.
  - destruct (Ascii.eqb c sep); [now rewrite IH|].
    rewrite IH. pose proof (split_nonempty sep s1) as Hne.
    destruct (Str.split sep s1); [congruence | reflexivity].
Qed.

Lemma length_split (sep : ascii) (s : string) :
  length (Str.split sep s) = S (count_char sep s).
Proof.
  induction s as [|c s IH]; simpl; [reflexivity|].
  destruct (Ascii.eqb c sep); simpl; [now rewrite IH|].
  pose proof (split_nonempty sep s) as Hne.
  destruct (Str.split sep s); [congruence | exact IH].
Qed.

Lemma mapM_app_option {A B : Type} (f : A -> option B) (l1 l2 : list A) :
  mapM f (l1 ++ l2) = (k1 ← mapM f l1; k2 ← mapM f l2; Some (k1 ++ k2)).
Proof.
  induction l1 as [|x l1 IH]; simpl.
  - destruct (mapM f l2); reflexivity.
  - destruct (f x); simpl; [|reflexivity]. rewrite IH.
    destruct (mapM f l1); simpl; [|reflexivity].
    destruct (mapM f l2); reflexivity.
Qed.

(** X10. A parsed valuation vector has one entry per comma-separated
    token: the number of bidders is the number of commas plus one. *)
Theorem parse_counts_commas (py_float : string -> option Q) (s : string)
    (v : ndarray) :
  parse_valuations py_float s = Some v ->
  length v = S (count_char "," s).
Proof.
  intros H. apply mapM_Some_1, Forall2_length in H.
  now rewrite <- H, length_split.
Qed.

Lemma parse_counts_commas_witness :
  length [10; 20; 15] = S (count_char "," "10, 20 ,15").
Proof.
  apply (parse_counts_commas Example.float "10, 20 ,15" [10; 20; 15]).
  reflexivity.
Defined.

(** X11. Parsing distributes over a comma: the valuations of
    [s1 + "," + s2] are those of [s1] followed by those of [s2], and the
    whole fails as soon as either part does. *)
Theorem parse_splits_at_comma (py_float : string -> option Q) (s1 s2 : string) :
  parse_valuations py_float (String.append s1 (String "," s2))
  = (v1 ← parse_valuations py_float s1;
     v2 ← parse_valuations py_float s2;
     Some (v1 ++ v2)).
Proof.
  unfold parse_valuations. now rewrite split_app_sep, mapM_app_option.
Qed.

(** X12. If [float] rejects the empty string (as Python's does), a
    valuations string that is empty, or that ends or starts with a comma,
    makes [main] raise the parse error before anything is printed or any
    solver is called. *)
Theorem main_rejects_blank_token
    (py_float : string -> option Q)
    (steepest_descent :
       (ndarray -> option Q) -> ndarray -> Q -> Q -> Z -> outcome ndarray)
    (newton : (ndarray -> option Q) -> ndarray -> Q -> Z -> outcome ndarray)
    (a : args) :
  py_float EmptyString = None ->
  (valuations a = EmptyString
   \/ (exists s, valuations a = String.append s ",")
   \/ (exists s, valuations a = String "," s)) ->
  main py_float steepest_descent newton a [] = (Raise parse_error, []).
Proof.
  intros Hempty Hblank.
  apply main_parse_error, (parse_bad_token py_float _ EmptyString);
    [|exact Hempty].
  destruct Hblank as [->|[[s ->]|[s ->]]].
  - simpl. tauto.
  - rewrite split_app_sep. apply in_or_app. right. simpl. tauto.
  - simpl. tauto.
Qed.

Lemma main_rejects_blank_token_witness :
  main Example.float Example.sd_stay Example.newton_stay
    (Example.cli "10,20," 100) []
  = (Raise parse_error, []).
Proof.
  apply (main_rejects_blank_token Example.float Example.sd_stay
           Example.newton_stay (Example.cli "10,20," 100)).
  - reflexivity.
  - right. left. exists "10,20"%string. reflexivity.
Defined.

(** ** Failure paths of the driver *)

Section DriverFailures.
Variable py_float : string -> option Q.
Variable steepest_descent :
  (ndarray -> option Q) -> ndarray -> Q -> Q -> Z -> outcome ndarray.
Variable newton :
  (ndarray -> option Q) -> ndarray -> Q -> Z -> outcome ndarray.
Variables (a : args) (v : ndarray).
Hypothesis Hparse : parse_valuations py_float (valuations a) = Some v.

Ltac step_main :=
  unfold main; rewrite Hparse;
  cbv beta iota zeta delta
    [mbind mret M_bind M_ret print emit call_steepest_descent call_newton
     from_outcome from_option raise try_except app].

Lemma main_sd_raises (e : exn) :
  steepest_descent (fun z => potential z v (mu a)) (initial_guess (length v))
    (alpha a) (tol a) (max_iter a) = Raise e ->
  main py_float steepest_descent newton a [] =
  (Raise e,
   [Print Banner; Print (BidderValuations v);
    Print (InitialGuess (initial_guess (length v)));
    Print RunningSteepestDescent;
    CallSteepestDescent (fun z => potential z v (mu a))
      (initial_guess (length v)) (alpha a) (tol a) (max_iter a)]).
Proof. intros Hsd. step_main. rewrite Hsd. reflexivity. Qed.

Lemma main_sd_bad_shape (z_sd : ndarray) :
  steepest_descent (fun z => potential z v (mu a)) (initial_guess (length v))
    (alpha a) (tol a) (max_iter a) = Return z_sd ->
  potential z_sd v (mu a) = None ->
  main py_float steepest_descent newton a [] =
  (Raise broadcast_error,
   [Print Banner; Print (BidderValuations v);
    Print (InitialGuess (initial_guess (length v)));
    Print RunningSteepestDescent;
    CallSteepestDescent (fun z => potential z v (mu a))
      (initial_guess (length v)) (alpha a) (tol a) (max_iter a);
    Print (SDSolution z_sd)]).
Proof. intros Hsd Hf. step_main. rewrite Hsd, Hf. reflexivity. Qed.

(** Once steepest descent has returned a vector the objective accepts,
    both solvers have been called, once each, whatever Newton's method
    does. *)
Lemma main_solver_calls (z_sd : ndarray) (f_sd : Q) :
  steepest_descent (fun z => potential z v (mu a)) (initial_guess (length v))
    (alpha a) (tol a) (max_iter a) = Return z_sd ->
  potential z_sd v (mu a) = Some f_sd ->
  solver_calls (main py_float steepest_descent newton a []).2 =
  [CallSteepestDescent (fun z => potential z v (mu a))
     (initial_guess (length v)) (alpha a) (tol a) (max_iter a);
   CallNewton (fun z => potential z v (mu a))
     (initial_guess (length v)) (tol a) (max_iter_newton a)].
Proof.
  intros Hsd Hf. step_main. rewrite Hsd, Hf.
  destruct (newton _ _ _ _) as [z_n|e];
    [destruct (potential z_n v (mu a)) as [f_n|]|];
    destruct (analytical_optimal_solution v); reflexivity.
Qed.
End DriverFailures.

(** C7 (as stated, for every run that reaches the solvers) fails.  With
    three bidders and a Newton's method that returns the five-entry vector
    [[1, 0, 0, 5, 5]], the objective raises inside the [try]: the solver
    returned a vector, yet the no-solution line is printed and no Newton
    revenue error is.  With a steepest descent that raises, the solver has
    been called but no steepest-descent revenue error is printed. *)
Lemma report_depends_on_solver_contract :
  (let newton := fun (_ : ndarray -> option Q) (_ : ndarray) (_ : Q) (_ : Z) =>
                   Return [1; 0; 0; 5; 5] in
   let r := main Example.float Example.sd_stay newton
              (Example.cli "10,20,15" 100) [] in
   In (Print NewtonNoSolution) r.2 /\
   ~ ((exists err, In (Print (NewtonRevenueError err)) r.2)
      <-> (exists z,
             newton (fun z => potential z [10; 20; 15] 100) (initial_guess 3)
               (1 # 1000000) 100%Z = Return z))) /\
  (let steepest_descent :=
     fun (_ : ndarray -> option Q) (_ : ndarray) (_ _ : Q) (_ : Z) =>
       @Raise ndarray (Exn "OverflowError" "diverged") in
   let r := main Example.float steepest_descent Example.newton_stay
              (Example.cli "10,20,15" 100) [] in
   Exists (fun ev => is_solver_call ev = true) r.2 /\
   ~ (exists err, In (Print (SDRevenueError err)) r.2)).
Proof.
  split; intros solver r.
  - pose proof (main_newton_bad_shape Example.float Example.sd_stay solver
                  (Example.cli "10,20,15" 100) [10; 20; 15] (initial_guess 3)
                  _ _ eq_refl eq_refl
                  (potential_shaped 3 (initial_guess 3) [10; 20; 15]
                     eq_refl eq_refl 100)
                  (analytical_first_max [10; 20; 15] 1
                     (argmax_from_spec [20; 15] [10] 0 10 eq_refl
                        ltac:(intros j y Hj;
                              apply list_lookup_singleton_Some in Hj as [_ <-];
                              lra)
                        ltac:(intros; lia)))
                  [1; 0; 0; 5; 5] eq_refl eq_refl) as Hrun.
    subst r. rewrite Hrun. cbn [fst snd]. split; [simpl; tauto|].
    intros [_ Hiff]. destruct Hiff as [err Herr]; [now eexists|].
    simpl in Herr. intuition discriminate.
  - pose proof (main_sd_raises Example.float solver Example.newton_stay
                  (Example.cli "10,20,15" 100) [10; 20; 15] eq_refl
                  (Exn "OverflowError" "diverged") eq_refl) as Hrun.
    subst r. rewrite Hrun. cbn [fst snd]. split.
    + apply Exists_exists. eexists. split.
      * apply list_elem_of_In. simpl. do 4 right. left. reflexivity.
      * reflexivity.
    + intros [err Herr]. simpl in Herr. intuition discriminate.
Qed.

(** X13. A failure of steepest descent is not contained: if the solver
    raises, [main] raises the same exception right after the call; Newton's
    method is never called and no analytical solution or comparison is
    printed. *)
Theorem steepest_descent_failure_propagates
    (py_float : string -> option Q)
    (steepest_descent :
       (ndarray -> option Q) -> ndarray -> Q -> Q -> Z -> outcome ndarray)
    (newton : (ndarray -> option Q) -> ndarray -> Q -> Z -> outcome ndarray)
    (a : args) (v : ndarray) (e : exn) :
  parse_valuations py_float (valuations a) = Some v ->
  steepest_descent (fun z => potential z v (mu a)) (initial_guess (length v))
    (alpha a) (tol a) (max_iter a) = Raise e ->
  main py_float steepest_descent newton a [] =
  (Raise e,
   [Print Banner; Print (BidderValuations v);
    Print (InitialGuess (initial_guess (length v)));
    Print RunningSteepestDescent;
    CallSteepestDescent (fun z => potential z v (mu a))
      (initial_guess (length v)) (alpha a) (tol a) (max_iter a)]).
Proof. intros Hparse Hsd. now apply main_sd_raises. Qed.

Lemma steepest_descent_failure_propagates_witness :
  (main Example.float
     (fun _ _ _ _ _ => Raise (Exn "OverflowError" "diverged"))
     Example.newton_stay (Example.cli "10,20,15" 100) []).1
  = Raise (Exn "OverflowError" "diverged").
Proof.
  rewrite (steepest_descent_failure_propagates Example.float
             (fun _ _ _ _ _ => Raise (Exn "OverflowError" "diverged"))
             Example.newton_stay (Example.cli "10,20,15" 100) [10; 20; 15]
             (Exn "OverflowError" "diverged"));
    reflexivity.
Defined.

(** X14. If steepest descent returns a vector on which the objective
    raises (a shape NumPy cannot broadcast), [main] aborts with that
    [ValueError] after printing the vector; Newton's method is never
    called. *)
Theorem steepest_descent_bad_shape_aborts
    (py_float : string -> option Q)
    (steepest_descent :
       (ndarray -> option Q) -> ndarray -> Q -> Q -> Z -> outcome ndarray)
    (newton : (ndarray -> option Q) -> ndarray -> Q -> Z -> outcome ndarray)
    (a : args) (v z_sd : ndarray) :
  parse_valuations py_float (valuations a) = Some v ->
  steepest_descent (fun z => potential z v (mu a)) (initial_guess (length v))
    (alpha a) (tol a) (max_iter a) = Return z_sd ->
  potential z_sd v (mu a) = None ->
  main py_float steepest_descent newton a [] =
  (Raise broadcast_error,
   [Print Banner; Print (BidderValuations v);
    Print (InitialGuess (initial_guess (length v)));
    Print RunningSteepestDescent;
    CallSteepestDescent (fun z => potential z v (mu a))
      (initial_guess (length v)) (alpha a) (tol a) (max_iter a);
    Print (SDSolution z_sd)]).
Proof. intros Hparse Hsd Hf. now apply main_sd_bad_shape. Qed.

Lemma steepest_descent_bad_shape_aborts_witness :
  (main Example.float (fun _ _ _ _ _ => Return [1; 0; 0; 5; 5])
     Example.newton_stay (Example.cli "10,20,15" 100) []).1
  = Raise broadcast_error.
Proof.
  rewrite (steepest_descent_bad_shape_aborts Example.float
             (fun _ _ _ _ _ => Return [1; 0; 0; 5; 5])
             Example.newton_stay (Example.cli "10,20,15" 100) [10; 20; 15]
             [1; 0; 0; 5; 5]);
    reflexivity.
Defined.

(** X15. If Newton's method returns a vector on which the objective
    raises, the handler treats it as a failed solver: the vector and the
    [ValueError] are printed, then the no-solution line, and no Newton
    revenue or revenue error is printed although the solver returned. *)
Theorem newton_bad_shape_is_reported_as_failure
    (py_float : string -> option Q)
    (steepest_descent :
       (ndarray -> option Q) -> ndarray -> Q -> Q -> Z -> outcome ndarray)
    (newton : (ndarray -> option Q) -> ndarray -> Q -> Z -> outcome ndarray)
    (a : args) (v z_sd z_newton : ndarray) :
  let potential_func := fun z : ndarray => potential z v (mu a) in
  let z0 := initial_guess (length v) in
  let r := main py_float steepest_descent newton a [] in
  parse_valuations py_float (valuations a) = Some v ->
  steepest_descent potential_func z0 (alpha a) (tol a) (max_iter a)
  = Return z_sd ->
  length z_sd = (2 * length v)%nat ->
  newton potential_func z0 (tol a) (max_iter_newton a) = Return z_newton ->
  potential_func z_newton = None ->
  r.1 = Return tt /\
  In (Print (NewtonSolution z_newton)) r.2 /\
  In (Print (NewtonFailed broadcast_error)) r.2 /\
  In (Print NewtonNoSolution) r.2 /\
  ~ (exists q, In (Print (NewtonRevenue q)) r.2) /\
  ~ (exists q, In (Print (NewtonRevenueError q)) r.2).
Proof.
  intros potential_func z0 r Hparse Hsd Hlen Hnt Hbad.
  pose proof (parse_nonempty py_float _ _ Hparse) as Hne.
  destruct (argmax_first_max v Hne) as [k [_ Hfm]].
  pose proof (analytical_first_max v k Hfm) as Hopt.
  pose proof (potential_shaped (length v) z_sd v eq_refl Hlen (mu a)) as Hf_sd.
  pose proof (main_newton_bad_shape py_float steepest_descent newton a v z_sd
                _ _ Hparse Hsd Hf_sd Hopt z_newton Hnt Hbad) as Hrun.
  subst r. rewrite Hrun. cbn [fst snd].
  repeat split; try (simpl; tauto);
    intros [q Hq]; simpl in Hq; intuition discriminate.
Qed.

Lemma newton_bad_shape_is_reported_as_failure_witness :
  In (Print NewtonNoSolution)
     (main Example.float Example.sd_stay
        (fun _ _ _ _ => Return [1; 0; 0; 5; 5])
        (Example.cli "10,20,15" 100) []).2.
Proof.
  apply (newton_bad_shape_is_reported_as_failure Example.float Example.sd_stay
           (fun _ _ _ _ => Return [1; 0; 0; 5; 5])
           (Example.cli "10,20,15" 100) [10; 20; 15] (initial_guess 3)
           [1; 0; 0; 5; 5]);
    reflexivity.
Defined.

(** X16. When steepest descent returns a solution vector, each solver is
    called exactly once, steepest descent first, both on the same
    objective [potential(., v, mu)] and from the same initial guess,
    whether Newton's method then returns or raises. *)
Theorem solvers_called_once_each
    (py_float : string -> option Q)
    (steepest_descent :
       (ndarray -> option Q) -> ndarray -> Q -> Q -> Z -> outcome ndarray)
    (newton : (ndarray -> option Q) -> ndarray -> Q -> Z -> outcome ndarray)
    (a : args) (v z_sd : ndarray) :
  parse_valuations py_float (valuations a) = Some v ->
  steepest_descent (fun z => potential z v (mu a)) (initial_guess (length v))
    (alpha a) (tol a) (max_iter a) = Return z_sd ->
  length z_sd = (2 * length v)%nat ->
  solver_calls (main py_float steepest_descent newton a []).2 =
  [CallSteepestDescent (fun z => potential z v (mu a))
     (initial_guess (length v)) (alpha a) (tol a) (max_iter a);
   CallNewton (fun z => potential z v (mu a))
     (initial_guess (length v)) (tol a) (max_iter_newton a)].
Proof.
  intros Hparse Hsd Hlen.
  eapply main_solver_calls; [exact Hparse | exact Hsd|].
  apply (potential_shaped (length v) z_sd v eq_refl Hlen).
Qed.

Lemma solvers_called_once_each_witness :
  length (solver_calls
            (main Example.float Example.sd_stay Example.newton_singular
               (Example.cli "10,20,15" 100) []).2) = 2%nat.
Proof.
  rewrite (solvers_called_once_each Example.float Example.sd_stay
             Example.newton_singular (Example.cli "10,20,15" 100)
             [10; 20; 15] (initial_guess 3));
    reflexivity.
Defined.
